(** * ccan/tcon: typed-container canaries (tcon.h)

    The header consists of three macros, [TCON], [tcon_check] and
    [tcon_cast].  A macro maps C expressions (or member declarations) to a
    C expression (or member declaration), so each macro is embedded as a
    Rocq function on the denotations of its arguments:

    - a C type is a [ctype]; its storage size and alignment follow the
      usual layout rule of C ABIs (every member at the next multiple of its
      alignment, the whole rounded up to the largest member alignment),
      over the scalar sizes of an [abi];
    - a C expression is a [cexpr]: its static type, whether it is a
      constant, the diagnostics (constraint violations of ISO C) that a
      translator reports for it, and its evaluation, a computation over a
      byte-addressed memory that records every access in a trace and may
      get stuck;
    - the operators that the macros are written with ([->], [[]], [.],
      [==], [sizeof], [?:], casts and [__typeof__]) are combinators on
      these denotations.

    Floating types, function types, bit-fields, variable length arrays and
    top-level qualifiers are outside the model; [const] is the only
    qualifier of a pointed-to type. *)

From Stdlib Require Import ZArith Lia Bool.
From stdpp Require Import base option strings list gmap.

Local Open Scope Z_scope.

(** ** config.h *)

(** The two feature macros of config.h that tcon.h tests. *)
Record config := {
  HAVE_TYPEOF : bool;
  HAVE_FLEXIBLE_ARRAY_MEMBER : bool
}.

(** ** C types *)

Inductive ikind :=
  | IBool | IChar | ISChar | IUChar | IShort | IUShort
  | IInt | IUInt | ILong | IULong | ILongLong | IULongLong.

Inductive su := Struct | Union.

(** [Tptr c t] is a pointer to [t], const-qualified when [c] holds.
    [Tarray t None] is an array without a length: a flexible array member.
    [Tcomp k tag ms] is a struct or union; an anonymous one has the empty
    tag, and one whose members are not in scope has no members. *)
Inductive ctype :=
  | Tvoid
  | Tint (k : ikind)
  | Tptr (c : bool) (t : ctype)
  | Tarray (t : ctype) (n : option Z)
  | Tcomp (k : su) (tag : string) (ms : members)
with members :=
  | Mnil
  | Mcons (name : string) (t : ctype) (rest : members).

Scheme ctype_members_ind := Induction for ctype Sort Prop
  with members_ctype_ind := Induction for members Sort Prop.
Combined Scheme ctype_mutind from ctype_members_ind, members_ctype_ind.

(** One member declaration. *)
Definition member_decl : Type := string * ctype.

Fixpoint msnoc (ms : members) (d : member_decl) : members :=
  match ms with
  | Mnil => Mcons (fst d) (snd d) Mnil
  | Mcons n t r => Mcons n t (msnoc r d)
  end.

Fixpoint member_type (ms : members) (m : string) : option ctype :=
  match ms with
  | Mnil => None
  | Mcons n t r => if String.eqb n m then Some t else member_type r m
  end.

Definition ikind_eqb (a b : ikind) : bool :=
  match a, b with
  | IBool, IBool | IChar, IChar | ISChar, ISChar | IUChar, IUChar
  | IShort, IShort | IUShort, IUShort | IInt, IInt | IUInt, IUInt
  | ILong, ILong | IULong, IULong | ILongLong, ILongLong
  | IULongLong, IULongLong => true
  | _, _ => false
  end.

Definition su_eqb (a b : su) : bool :=
  match a, b with
  | Struct, Struct | Union, Union => true
  | _, _ => false
  end.

(** The same type, written the same way. *)
Fixpoint same_type (t u : ctype) : bool :=
  match t, u with
  | Tvoid, Tvoid => true
  | Tint a, Tint b => ikind_eqb a b
  | Tptr c1 t1, Tptr c2 t2 => Bool.eqb c1 c2 && same_type t1 t2
  | Tarray t1 n1, Tarray t2 n2 =>
      same_type t1 t2 &&
      match n1, n2 with
      | Some a, Some b => a =? b
      | None, None => true
      | _, _ => false
      end
  | Tcomp k1 g1 ms1, Tcomp k2 g2 ms2 =>
      su_eqb k1 k2 && String.eqb g1 g2 && same_members ms1 ms2
  | _, _ => false
  end
with same_members (ms ns : members) : bool :=
  match ms, ns with
  | Mnil, Mnil => true
  | Mcons n1 t1 r1, Mcons n2 t2 r2 =>
      String.eqb n1 n2 && same_type t1 t2 && same_members r1 r2
  | _, _ => false
  end.

(** Compatible types (C11 6.2.7): the same type, where an array without
    length is compatible with one of any length.  A struct or union with
    a tag is identified by its kind and tag.  One without a tag is a type
    of its own for each declaration (C11 6.7.2.3p5); a [ctype] does not
    record the declaration, so an untagged type is taken to be the same
    only as one written with the same members, and two declarations that
    read the same cannot be told apart.  What is stated of compatibility
    below is stated of types that are [tagged]. *)
Fixpoint compatible (t u : ctype) : bool :=
  match t, u with
  | Tvoid, Tvoid => true
  | Tint a, Tint b => ikind_eqb a b
  | Tptr c1 t1, Tptr c2 t2 => Bool.eqb c1 c2 && compatible t1 t2
  | Tarray t1 n1, Tarray t2 n2 =>
      compatible t1 t2 &&
      match n1, n2 with
      | Some a, Some b => a =? b
      | _, _ => true
      end
  | Tcomp k1 g1 ms1, Tcomp k2 g2 ms2 =>
      su_eqb k1 k2 && String.eqb g1 g2 &&
      (negb (String.eqb g1 "") || same_members ms1 ms2)
  | _, _ => false
  end.


Definition is_void (t : ctype) : bool :=
  match t with Tvoid => true | _ => false end.

Definition is_integer (t : ctype) : bool :=
  match t with Tint _ => true | _ => false end.

Definition is_pointer (t : ctype) : bool :=
  match t with Tptr _ _ => true | _ => false end.

(** Scalar types: arithmetic types and pointers. *)
Definition is_scalar (t : ctype) : bool := is_integer t || is_pointer t.

(** ** The ABI: sizes and alignments of the scalar types *)

Record abi := {
  sizeof_ikind : ikind -> Z;
  alignof_ikind : ikind -> Z;
  sizeof_ptr : Z;
  alignof_ptr : Z;
  char_signed : bool;
  size_t_kind : ikind
}.

(** What ISO C guarantees of every ABI, as far as the header depends on
    it: alignments are positive and an [int] occupies storage. *)
Record abi_ok (a : abi) : Prop := {
  alignof_ikind_pos : forall k, 0 < alignof_ikind a k;
  alignof_ptr_pos : 0 < alignof_ptr a;
  sizeof_int_pos : 0 < sizeof_ikind a IInt
}.

(** The LP64 data model (x86-64 and AArch64 System V). *)
Definition lp64 : abi := {|
  sizeof_ikind := fun k =>
    match k with
    | IBool | IChar | ISChar | IUChar => 1
    | IShort | IUShort => 2
    | IInt | IUInt => 4
    | ILong | IULong | ILongLong | IULongLong => 8
    end;
  alignof_ikind := fun k =>
    match k with
    | IBool | IChar | ISChar | IUChar => 1
    | IShort | IUShort => 2
    | IInt | IUInt => 4
    | ILong | IULong | ILongLong | IULongLong => 8
    end;
  sizeof_ptr := 8;
  alignof_ptr := 8;
  char_signed := true;
  size_t_kind := IULong
|}.

(** ** Storage layout *)

(** The least multiple of [a] that is not below [n]. *)
Definition align_up (n a : Z) : Z := (n + a - 1) / a * a.

Section Layout.
Variable a : abi.

Fixpoint alignof (t : ctype) : Z :=
  match t with
  | Tvoid => 1
  | Tint k => alignof_ikind a k
  | Tptr _ _ => alignof_ptr a
  | Tarray t _ => alignof t
  | Tcomp _ _ ms => alignof_members ms
  end
with alignof_members (ms : members) : Z :=
  match ms with
  | Mnil => 1
  | Mcons _ t r => Z.max (alignof t) (alignof_members r)
  end.

(** [struct_end ms pos]: the first byte after the members [ms] laid out
    in order from position [pos].  An array without length occupies
    nothing; the size of a struct is where its members end, rounded up
    to its alignment. *)
Fixpoint sizeof (t : ctype) : Z :=
  match t with
  | Tvoid => 1
  | Tint k => sizeof_ikind a k
  | Tptr _ _ => sizeof_ptr a
  | Tarray t n => sizeof t * default 0 n
  | Tcomp Struct _ ms => align_up (struct_end ms 0) (alignof_members ms)
  | Tcomp Union _ ms => align_up (union_max ms) (alignof_members ms)
  end
with struct_end (ms : members) (pos : Z) {struct ms} : Z :=
  match ms with
  | Mnil => pos
  | Mcons _ t r => struct_end r (align_up pos (alignof t) + sizeof t)
  end
with union_max (ms : members) : Z :=
  match ms with
  | Mnil => 0
  | Mcons _ t r => Z.max (sizeof t) (union_max r)
  end.

(** Offset of member [m] among [ms] laid out from [pos]. *)
Fixpoint struct_offset (ms : members) (m : string) (pos : Z) : option Z :=
  match ms with
  | Mnil => None
  | Mcons n t r =>
      let off := align_up pos (alignof t) in
      if String.eqb n m then Some off
      else struct_offset r m (off + sizeof t)
  end.

Definition member_offset (k : su) (ms : members) (m : string) : option Z :=
  match k with
  | Struct => struct_offset ms m 0
  | Union => match member_type ms m with Some _ => Some 0 | None => None end
  end.
End Layout.

(** ** TCON *)

(** [#define TCON(decls) struct { decls; } _tcon[]] with flexible array
    members, [struct { decls; } _tcon[1]] without. *)
Definition TCON (cfg : config) (decls : members) : member_decl :=
  ("_tcon"%string,
   Tarray (Tcomp Struct "" decls)
          (if HAVE_FLEXIBLE_ARRAY_MEMBER cfg then None else Some 1)).

(** ** Values, memory and evaluation *)

Inductive val :=
  | Vint (n : Z)
  | Vptr (p : Z)
  | Vagg (bs : list Z)
  | Vvoid.

(** Every access to memory is recorded. *)
Inductive access :=
  | Rd (p : Z) (n : Z)
  | Wr (p : Z) (bs : list Z).

Record state := {
  mem : gmap Z Z;
  trace : list access
}.

(** An evaluation threads the state and may get stuck (undefined
    behaviour, or no behaviour at all for an ill-typed operand). *)
Definition M (A : Type) : Type := state -> option (A * state).

Definition ret {A} (x : A) : M A := fun s => Some (x, s).

Definition fail {A} : M A := fun _ => None.

Definition bind {A B} (m : M A) (k : A -> M B) : M B :=
  fun s => match m s with
           | Some (x, s') => k x s'
           | None => None
           end.

Notation "x <- m ;; k" := (bind m (fun x => k))
  (at level 100, m at next level, right associativity).

Fixpoint read_bytes (m : gmap Z Z) (p : Z) (n : nat) : option (list Z) :=
  match n with
  | O => Some []
  | S n' =>
      match m !! p, read_bytes m (p + 1) n' with
      | Some b, Some bs => Some (b :: bs)
      | _, _ => None
      end
  end.

(** Reading [n] bytes at [p]: stuck outside the mapped memory. *)
Definition load_bytes (p n : Z) : M (list Z) :=
  fun s => match read_bytes (mem s) p (Z.to_nat n) with
           | Some bs => Some (bs, {| mem := mem s; trace := Rd p n :: trace s |})
           | None => None
           end.

Fixpoint le_decode (bs : list Z) : Z :=
  match bs with
  | [] => 0
  | b :: r => b + 256 * le_decode r
  end.

(** ** Integer conversions *)

Section Semantics.
Variable a : abi.

Definition ik_signed (k : ikind) : bool :=
  match k with
  | IChar => char_signed a
  | ISChar | IShort | IInt | ILong | ILongLong => true
  | IBool | IUChar | IUShort | IUInt | IULong | IULongLong => false
  end.

Definition ik_rank (k : ikind) : Z :=
  match k with
  | IBool => 0
  | IChar | ISChar | IUChar => 1
  | IShort | IUShort => 2
  | IInt | IUInt => 3
  | ILong | IULong => 4
  | ILongLong | IULongLong => 5
  end.

Definition ik_unsigned (k : ikind) : ikind :=
  match k with
  | IInt => IUInt
  | ILong => IULong
  | ILongLong => IULongLong
  | _ => k
  end.

(** Conversion of an integer to the kind [k]: wrap-around at the width
    of [k], and the truth value for [_Bool]. *)
Definition wrap (k : ikind) (n : Z) : Z :=
  match k with
  | IBool => if n =? 0 then 0 else 1
  | _ =>
      let w := 2 ^ (8 * sizeof_ikind a k) in
      if ik_signed k then (n + w / 2) mod w - w / 2 else n mod w
  end.

Definition wrap_ptr (n : Z) : Z := n mod 2 ^ (8 * sizeof_ptr a).

(** Integer promotions (C11 6.3.1.1). *)
Definition promote (k : ikind) : ikind :=
  if ik_rank k <? ik_rank IInt then
    if ik_signed k || (sizeof_ikind a k <? sizeof_ikind a IInt)
    then IInt else IUInt
  else k.

(** Usual arithmetic conversions (C11 6.3.1.8) of two promoted kinds. *)
Definition common_kind (k1 k2 : ikind) : ikind :=
  let p1 := promote k1 in
  let p2 := promote k2 in
  if ikind_eqb p1 p2 then p1
  else if Bool.eqb (ik_signed p1) (ik_signed p2) then
    (if ik_rank p1 <? ik_rank p2 then p2 else p1)
  else
    let u := if ik_signed p1 then p2 else p1 in
    let s := if ik_signed p1 then p1 else p2 in
    if ik_rank s <=? ik_rank u then u
    else if sizeof_ikind a u <? sizeof_ikind a s then s
    else ik_unsigned s.

(** ** Expressions *)

(** Constraint violations, for which ISO C requires a diagnostic. *)
Inductive diag :=
  | NotAPointer (t : ctype)
  | NotAnAggregate (t : ctype)
  | NoSuchMember (m : string)
  | BadSubscript (t u : ctype)
  | BadComparison (t u : ctype)
  | BadSizeof (t : ctype)
  | BadCondition (t : ctype)
  | BadBranches (t u : ctype)
  | BadCast (t u : ctype).

(** What the translator knows of the value: an integer constant
    expression, such an expression of value 0 cast to [void *], or
    nothing. *)
Inductive constness :=
  | Dynamic
  | ICE (n : Z)
  | NullCast.

Definition is_npc (c : constness) : bool :=
  match c with
  | ICE n => n =? 0
  | NullCast => true
  | Dynamic => false
  end.

(** An expression used for its value.  [ty] is its type after lvalue
    conversion and array decay, [None] when no type can be given
    (a diagnostic has then been reported). *)
Record cexpr := {
  ty : option ctype;
  cst : constness;
  diags : list diag;
  run : M val
}.

(** An expression that designates an object. *)
Record clval := {
  lty : option ctype;
  ldiags : list diag;
  laddr : M Z
}.

(** A type name, as a cast takes it. *)
Record tyname := {
  tn_ty : option ctype;
  tn_diags : list diag
}.

Definition const_int (n : Z) : cexpr :=
  {| ty := Some (Tint IInt); cst := ICE n; diags := []; run := ret (Vint n) |}.

(** [*e] *)
Definition deref (e : cexpr) : clval :=
  match ty e with
  | Some (Tptr _ t) =>
      {| lty := Some t; ldiags := diags e;
         laddr := v <- run e ;;
                  match v with Vptr p => ret p | _ => fail end |}
  | Some t =>
      {| lty := None; ldiags := diags e ++ [NotAPointer t]; laddr := fail |}
  | None =>
      {| lty := None; ldiags := diags e; laddr := fail |}
  end.

(** [l.m] *)
Definition member (l : clval) (m : string) : clval :=
  match lty l with
  | Some (Tcomp k _ ms) =>
      match member_type ms m, member_offset a k ms m with
      | Some t, Some off =>
          {| lty := Some t; ldiags := ldiags l;
             laddr := p <- laddr l ;; ret (p + off) |}
      | _, _ =>
          {| lty := None; ldiags := ldiags l ++ [NoSuchMember m]; laddr := fail |}
      end
  | Some t =>
      {| lty := None; ldiags := ldiags l ++ [NotAnAggregate t]; laddr := fail |}
  | None =>
      {| lty := None; ldiags := ldiags l; laddr := fail |}
  end.

(** [e->m], that is [( *e).m] *)
Definition arrow (e : cexpr) (m : string) : clval := member (deref e) m.

(** Lvalue conversion: an array decays to a pointer to its first
    element without any access; any other object is read. *)
Definition rval (l : clval) : cexpr :=
  match lty l with
  | Some (Tarray t _) =>
      {| ty := Some (Tptr false t); cst := Dynamic; diags := ldiags l;
         run := p <- laddr l ;; ret (Vptr p) |}
  | Some (Tint k) =>
      {| ty := Some (Tint k); cst := Dynamic; diags := ldiags l;
         run := p <- laddr l ;;
                bs <- load_bytes p (sizeof_ikind a k) ;;
                ret (Vint (wrap k (le_decode bs))) |}
  | Some (Tptr c t) =>
      {| ty := Some (Tptr c t); cst := Dynamic; diags := ldiags l;
         run := p <- laddr l ;;
                bs <- load_bytes p (sizeof_ptr a) ;;
                ret (Vptr (le_decode bs)) |}
  | Some (Tcomp k g ms) =>
      {| ty := Some (Tcomp k g ms); cst := Dynamic; diags := ldiags l;
         run := p <- laddr l ;;
                bs <- load_bytes p (sizeof a (Tcomp k g ms)) ;;
                ret (Vagg bs) |}
  | Some Tvoid =>
      {| ty := Some Tvoid; cst := Dynamic; diags := ldiags l; run := fail |}
  | None =>
      {| ty := None; cst := Dynamic; diags := ldiags l; run := fail |}
  end.

(** [e[i]], that is [*(e + i)] with either operand the pointer; the
    pointed-to type must be complete. *)
Definition index (e i : cexpr) : clval :=
  match ty e, ty i with
  | Some (Tptr c t), Some (Tint k) =>
      if is_void t then
        {| lty := None;
           ldiags := diags e ++ diags i ++ [BadSubscript (Tptr c t) (Tint k)];
           laddr := fail |}
      else
        {| lty := Some t; ldiags := diags e ++ diags i;
           laddr := v <- run e ;; w <- run i ;;
                    match v, w with
                    | Vptr p, Vint n => ret (p + n * sizeof a t)
                    | _, _ => fail
                    end |}
  | Some (Tint k), Some (Tptr c t) =>
      if is_void t then
        {| lty := None;
           ldiags := diags e ++ diags i ++ [BadSubscript (Tint k) (Tptr c t)];
           laddr := fail |}
      else
        {| lty := Some t; ldiags := diags e ++ diags i;
           laddr := v <- run e ;; w <- run i ;;
                    match v, w with
                    | Vint n, Vptr p => ret (p + n * sizeof a t)
                    | _, _ => fail
                    end |}
  | Some t, Some u =>
      {| lty := None; ldiags := diags e ++ diags i ++ [BadSubscript t u];
         laddr := fail |}
  | _, _ =>
      {| lty := None; ldiags := diags e ++ diags i; laddr := fail |}
  end.

(** The constraints of [==] (C11 6.5.9): both operands arithmetic; or
    pointers to qualified or unqualified versions of compatible types;
    or a pointer to an object and a pointer to void; or a pointer and a
    null pointer constant. *)
Definition eq_operands_ok (t u : ctype) (ct cu : constness) : bool :=
  match t, u with
  | Tint _, Tint _ => true
  | Tptr _ t', Tptr _ u' => compatible t' u' || is_void t' || is_void u'
  | Tptr _ _, Tint _ => is_npc cu
  | Tint _, Tptr _ _ => is_npc ct
  | _, _ => false
  end.

Definition eq_check (e1 e2 : cexpr) : list diag :=
  match ty e1, ty e2 with
  | Some t, Some u =>
      if eq_operands_ok t u (cst e1) (cst e2) then [] else [BadComparison t u]
  | _, _ => []
  end.

Definition Z_of_bool (b : bool) : Z := if b then 1 else 0.

Definition eq_val (t u : option ctype) (v w : val) : option val :=
  match v, w with
  | Vint n, Vint m =>
      match t, u with
      | Some (Tint k1), Some (Tint k2) =>
          let k := common_kind k1 k2 in
          Some (Vint (Z_of_bool (wrap k n =? wrap k m)))
      | _, _ => None
      end
  | Vptr p, Vptr q => Some (Vint (Z_of_bool (p =? q)))
  | Vptr p, Vint n | Vint n, Vptr p => Some (Vint (Z_of_bool (p =? wrap_ptr n)))
  | _, _ => None
  end.

(** [e1 == e2]: its result has type [int] (C11 6.5.9p3) whatever the
    operands; what is wrong with the operands is in [diags]. *)
Definition eq_ (e1 e2 : cexpr) : cexpr :=
  {| ty := Some (Tint IInt);
     cst := match cst e1, cst e2, ty e1, ty e2 with
            | ICE n, ICE m, Some (Tint k1), Some (Tint k2) =>
                let k := common_kind k1 k2 in
                ICE (Z_of_bool (wrap k n =? wrap k m))
            | _, _, _, _ => Dynamic
            end;
     diags := diags e1 ++ diags e2 ++ eq_check e1 e2;
     run := v <- run e1 ;; w <- run e2 ;;
            match eq_val (ty e1) (ty e2) v w with
            | Some r => ret r
            | None => fail
            end |}.

(** [sizeof e]: the operand is not evaluated; the result is the size
    of its type, a constant of type [size_t]. *)
Definition sizeof_ (e : cexpr) : cexpr :=
  match ty e with
  | Some t =>
      {| ty := Some (Tint (size_t_kind a));
         cst := ICE (sizeof a t);
         diags := diags e ++ (if is_void t then [BadSizeof t] else []);
         run := ret (Vint (sizeof a t)) |}
  | None =>
      {| ty := Some (Tint (size_t_kind a)); cst := Dynamic;
         diags := diags e; run := fail |}
  end.

(** The type of [c ? e1 : e2] (C11 6.5.15). *)
Definition cond_type (t u : ctype) (ct cu : constness) : option ctype :=
  match t, u with
  | Tint k1, Tint k2 => Some (Tint (common_kind k1 k2))
  | Tvoid, Tvoid => Some Tvoid
  | Tcomp _ _ _, Tcomp _ _ _ => if compatible t u then Some t else None
  | Tptr c1 t1, Tptr c2 t2 =>
      if compatible t1 t2 then Some (Tptr (c1 || c2) t1)
      else if is_npc cu then Some t
      else if is_npc ct then Some u
      else if is_void t1 || is_void t2 then Some (Tptr (c1 || c2) Tvoid)
      else None
  | Tptr _ _, Tint _ => if is_npc cu then Some t else None
  | Tint _, Tptr _ _ => if is_npc ct then Some u else None
  | _, _ => None
  end.

(** Conversion of a branch of static type [from] to the type of the
    conditional: only an integer branch is converted. *)
Definition cond_conv (from to : option ctype) (v : val) : val :=
  match from, to, v with
  | Some (Tint _), Some (Tint k), Vint n => Vint (wrap k n)
  | Some (Tint _), Some (Tptr _ _), Vint n => Vptr (wrap_ptr n)
  | _, _, _ => v
  end.

Definition truth (v : val) : option bool :=
  match v with
  | Vint n => Some (negb (n =? 0))
  | Vptr p => Some (negb (p =? 0))
  | _ => None
  end.

(** [c ? e1 : e2]: [c] is evaluated, then exactly one branch. *)
Definition cond (c e1 e2 : cexpr) : cexpr :=
  let rt := match ty e1, ty e2 with
            | Some t, Some u => cond_type t u (cst e1) (cst e2)
            | _, _ => None
            end in
  {| ty := rt;
     cst := match cst c, cst e1, cst e2, rt with
            | ICE n, ICE x, ICE y, Some (Tint k) =>
                ICE (wrap k (if n =? 0 then y else x))
            | _, _, _, _ => Dynamic
            end;
     diags := diags c ++ diags e1 ++ diags e2
              ++ match ty c with
                 | Some t => if is_scalar t then [] else [BadCondition t]
                 | None => []
                 end
              ++ match ty e1, ty e2, rt with
                 | Some t, Some u, None => [BadBranches t u]
                 | _, _, _ => []
                 end;
     run := v <- run c ;;
            match truth v with
            | Some true => w <- run e1 ;; ret (cond_conv (ty e1) rt w)
            | Some false => w <- run e2 ;; ret (cond_conv (ty e2) rt w)
            | None => fail
            end |}.

(** [__typeof__(l)]: the declared type of the object; [l] is not
    evaluated. *)
Definition typeof_ (l : clval) : tyname :=
  {| tn_ty := lty l; tn_diags := ldiags l |}.

Definition type_name (t : ctype) : tyname :=
  {| tn_ty := Some t; tn_diags := [] |}.

(** The constraints of a cast (C11 6.5.4): to void, or from a scalar
    to a scalar. *)
Definition cast_check (t : option ctype) (u : option ctype) : list diag :=
  match t, u with
  | Some Tvoid, _ => []
  | Some t, Some u =>
      if is_scalar t && is_scalar u then [] else [BadCast t u]
  | _, _ => []
  end.

Definition cast_val (t : option ctype) (v : val) : option val :=
  match t, v with
  | Some Tvoid, _ => Some Vvoid
  | Some (Tint k), Vint n => Some (Vint (wrap k n))
  | Some (Tint k), Vptr p => Some (Vint (wrap k p))
  | Some (Tptr _ _), Vint n => Some (Vptr (wrap_ptr n))
  | Some (Tptr _ _), Vptr p => Some (Vptr p)
  | _, _ => None
  end.

(** [(tn) e]: of the named type, which is void or scalar; a cast to
    any other type is no expression. *)
Definition cast (tn : tyname) (e : cexpr) : cexpr :=
  {| ty := match tn_ty tn with
           | Some t => if is_void t || is_scalar t then Some t else None
           | None => None
           end;
     cst := match tn_ty tn, cst e with
            | Some (Tint k), ICE n => ICE (wrap k n)
            | Some (Tptr false Tvoid), ICE n =>
                if n =? 0 then NullCast else Dynamic
            | _, _ => Dynamic
            end;
     diags := tn_diags tn ++ diags e ++ cast_check (tn_ty tn) (ty e);
     run := v <- run e ;;
            match cast_val (tn_ty tn) v with
            | Some r => ret r
            | None => fail
            end |}.

(** ** tcon_check and tcon_cast *)

(** [(x)->_tcon[0].canary], the operand that both macros name. *)
Definition canary_of (x : cexpr) (canary : string) : clval :=
  member (index (rval (arrow x "_tcon")) (const_int 0)) canary.

(** [#define tcon_check(x, canary, expr)
       (sizeof((x)->_tcon[0].canary == (expr)) ? (x) : (x))] *)
Definition tcon_check (x : cexpr) (canary : string) (expr : cexpr) : cexpr :=
  cond (sizeof_ (eq_ (rval (canary_of x canary)) expr)) x x.

(** [#define tcon_cast(x, canary, expr)
       ((__typeof__((x)->_tcon[0].canary))(expr))] with [HAVE_TYPEOF],
    [((void * )(expr))] without. *)
Definition tcon_cast (cfg : config) (x : cexpr) (canary : string)
    (expr : cexpr) : cexpr :=
  if HAVE_TYPEOF cfg
  then cast (typeof_ (canary_of x canary)) expr
  else cast (type_name (Tptr false Tvoid)) expr.

(** The type with which the container that [x] points to declares
    [canary], read off the declaration of its [_tcon] member. *)
Definition canary_decl (x : cexpr) (canary : string) : option ctype :=
  match ty x with
  | Some (Tptr _ (Tcomp _ _ ms)) =>
      match member_type ms "_tcon" with
      | Some (Tarray (Tcomp _ _ decls) _) => member_type decls canary
      | _ => None
      end
  | _ => None
  end.
End Semantics.


(** The type of an object used for its value: an array decays. *)
Definition decay (t : ctype) : ctype :=
  match t with
  | Tarray u _ => Tptr false u
  | _ => t
  end.

(** ** Footprints *)

(** The access [ac] overlaps the bytes from [lo] up to [hi]. *)
Definition touches (lo hi : Z) (ac : access) : Prop :=
  match ac with
  | Rd p n => p < hi /\ lo < p + n
  | Wr p bs => p < hi /\ lo < p + Z.of_nat (length bs)
  end.

(** From [s] to [s'] the bytes from [lo] up to [hi] keep their contents
    and no access made in between overlaps them. *)
Definition untouched (lo hi : Z) (s s' : state) : Prop :=
  (forall p, lo <= p < hi -> mem s' !! p = mem s !! p) /\
  exists new, trace s' = new ++ trace s /\
              Forall (fun ac => ~ touches lo hi ac) new.

(** ** Expressions to try the macros on *)

(** A side-effect free expression of type [t] and value [v]. *)
Definition value_of (t : ctype) (v : val) : cexpr :=
  {| ty := Some t; cst := Dynamic; diags := []; run := ret v |}.

(** [e] preceded by a side effect, the store of [bs] at [p], as in
    [( *p = bs, e)] . *)
Definition storing (p : Z) (bs : list Z) (e : cexpr) : cexpr :=
  {| ty := ty e; cst := Dynamic; diags := diags e;
     run := fun s =>
       run e {| mem := foldr (fun '(i, b) m => <[p + Z.of_nat i := b]> m)
                             (mem s) (imap (fun i b => (i, b)) bs);
                trace := Wr p bs :: trace s |} |}.

Definition with_all : config :=
  {| HAVE_TYPEOF := true; HAVE_FLEXIBLE_ARRAY_MEMBER := true |}.

Definition with_none : config :=
  {| HAVE_TYPEOF := false; HAVE_FLEXIBLE_ARRAY_MEMBER := false |}.

Definition char_ptr : ctype := Tptr false (Tint IChar).

(** The containers of the header's own example. *)
Definition list_head : ctype :=
  Tcomp Struct "list_head"
    (Mcons "prev" (Tptr false (Tcomp Struct "list_head" Mnil))
    (Mcons "next" (Tptr false (Tcomp Struct "list_head" Mnil)) Mnil)).

Definition string_list (cfg : config) : ctype :=
  Tcomp Struct "string_list"
    (msnoc (Mcons "raw" list_head Mnil)
           (TCON cfg (Mcons "canary" char_ptr Mnil))).

Definition struct_map : ctype :=
  Tcomp Struct "map" (Mcons "contents" (Tptr false Tvoid) Mnil).

Definition int_to_string_map (cfg : config) : ctype :=
  Tcomp Struct "int_to_string_map"
    (msnoc (Mcons "raw" struct_map Mnil)
           (TCON cfg (Mcons "charp_canary" char_ptr
                     (Mcons "int_canary" (Tint IInt) Mnil)))).



Definition void_list (cfg : config) : ctype :=
  Tcomp Struct "void_list"
    (msnoc (Mcons "raw" list_head Mnil)
           (TCON cfg (Mcons "canary" (Tptr false Tvoid) Mnil))).

(** A memory of [n] zero bytes from address [p]. *)
Fixpoint zeroes (p : Z) (n : nat) : gmap Z Z :=
  match n with
  | O => ∅
  | S n' => <[p := 0]> (zeroes (p + 1) n')
  end.

(** The type that [tcon_cast] converts to. *)
Definition cast_target (cfg : config) (T : ctype) : ctype :=
  if HAVE_TYPEOF cfg then T else Tptr false Tvoid.

Definition is_scalar_val (v : val) : bool :=
  match v with
  | Vint _ | Vptr _ => true
  | _ => false
  end.

(** [v] is a value of the scalar type [t]: a pointer for a pointer type,
    and for an integer type an integer that the type represents, which
    conversion to the type leaves as it is. *)
Definition val_has_type (a : abi) (v : val) (t : ctype) : Prop :=
  match t, v with
  | Tint k, Vint n => wrap a k n = n
  | Tptr _ _, Vptr _ => True
  | _, _ => False
  end.

(** A container of names kept in place, [TCON(char canary[4])]. *)
Definition name_list (cfg : config) : ctype :=
  Tcomp Struct "name_list"
    (msnoc (Mcons "raw" list_head Mnil)
           (TCON cfg (Mcons "canary" (Tarray (Tint IChar) (Some 4)) Mnil))).

Definition the_names : cexpr :=
  value_of (Tptr false (name_list with_all)) (Vptr 4096).

(** A [struct string_list] at address 4096, its [_tcon] member at 4112,
    and a string at 8192, as in [tlist_add(h, n, member)]. *)
Definition the_list (cfg : config) : cexpr :=
  value_of (Tptr false (string_list cfg)) (Vptr 4096).

Definition the_string : cexpr := value_of char_ptr (Vptr 8192).

Definition the_map : cexpr :=
  value_of (Tptr false (int_to_string_map with_all)) (Vptr 4096).


Definition the_voids : cexpr :=
  value_of (Tptr false (void_list with_all)) (Vptr 4096).


Definition a_long : cexpr := value_of (Tint ILong) (Vint 7).

(** Nothing mapped, nothing accessed yet. *)
Definition empty_state : state := {| mem := ∅; trace := [] |}.

(** The 24 bytes of a [struct string_list] without flexible array
    members, all zero. *)
Definition list_state : state := {| mem := zeroes 4096 24; trace := [] |}.

(** * Properties *)

(** ** Layout arithmetic *)

Lemma align_up_multiple n a : (a | align_up n a).
Proof. unfold align_up. apply Z.divide_factor_r. Qed.

Lemma align_up_bounds n a : 0 < a -> n <= align_up n a < n + a.
Proof.
  intros Ha. unfold align_up.
  pose proof (Z.div_mod (n + a - 1) a ltac:(lia)) as Hd.
  pose proof (Z.mod_pos_bound (n + a - 1) a Ha) as Hm.
  lia.
Qed.

(** Within a window of [a] positions there is one multiple of [a]. *)
Lemma multiple_unique a lo m1 m2 :
  0 < a -> (a | m1) -> (a | m2) ->
  lo <= m1 < lo + a -> lo <= m2 < lo + a -> m1 = m2.
Proof.
  intros Ha [q1 ->] [q2 ->] H1 H2.
  assert (q1 = q2) by nia. congruence.
Qed.

Lemma align_up_least n a m : 0 < a -> (a | m) -> n <= m -> align_up n a <= m.
Proof.
  intros Ha [q ->] Hn.
  pose proof (align_up_bounds n a Ha) as Hb.
  destruct (align_up_multiple n a) as [p Hp]. rewrite Hp in *.
  destruct (Z_le_gt_dec p q) as [Hpq|Hpq]; [nia|].
  assert ((q + 1) * a <= p * a) by nia. lia.
Qed.

Lemma align_up_fixed n a : 0 < a -> (a | n) -> align_up n a = n.
Proof.
  intros Ha Hd.
  apply (multiple_unique a n); auto using align_up_multiple, align_up_bounds.
  lia.
Qed.

(** Rounding to a finer alignment first changes nothing. *)
Lemma align_up_finer n b a :
  0 < b -> 0 < a -> (b | a) -> align_up (align_up n b) a = align_up n a.
Proof.
  intros Hb Ha Hba.
  pose proof (align_up_bounds n b Hb) as Hnb.
  pose proof (align_up_bounds n a Ha) as Hna.
  pose proof (align_up_bounds (align_up n b) a Ha) as Hnba.
  assert (align_up n b <= align_up n a) as Hle.
  { apply align_up_least; [done | | lia].
    etrans; [exact Hba | apply align_up_multiple]. }
  apply (multiple_unique a (align_up n b)); auto using align_up_multiple.
  lia.
Qed.

Lemma align_up_add n m a :
  0 < a -> (a | m) -> align_up (n + m) a = align_up n a + m.
Proof.
  intros Ha [q ->]. unfold align_up.
  replace (n + q * a + a - 1) with (n + a - 1 + q * a) by lia.
  rewrite Z.div_add by lia. lia.
Qed.

Section LayoutFacts.
Variable a : abi.
Hypothesis a_ok : abi_ok a.

Lemma alignof_pos_mut :
  (forall t, 0 < alignof a t) /\ (forall ms, 0 < alignof_members a ms).
Proof.
  apply ctype_mutind; simpl; intros; auto.
  - lia.
  - apply a_ok.
  - apply a_ok.
  - lia.
  - lia.
Qed.

Lemma alignof_pos t : 0 < alignof a t.
Proof. apply alignof_pos_mut. Qed.

Lemma alignof_members_pos ms : 0 < alignof_members a ms.
Proof. apply alignof_pos_mut. Qed.
End LayoutFacts.

Lemma alignof_members_msnoc a ms d :
  alignof_members a (msnoc ms d)
  = Z.max (alignof_members a ms) (alignof a (snd d)).
Proof.
  induction ms as [|n t r IH]; simpl.
  - lia.
  - rewrite IH. lia.
Qed.

Lemma struct_end_msnoc a ms d pos :
  struct_end a (msnoc ms d) pos
  = align_up (struct_end a ms pos) (alignof a (snd d)) + sizeof a (snd d).
Proof.
  revert pos. induction ms as [|n t r IH]; intros pos; simpl.
  - reflexivity.
  - apply IH.
Qed.

Lemma member_type_offset a ms m t pos :
  member_type ms m = Some t -> is_Some (struct_offset a ms m pos).
Proof.
  revert pos. induction ms as [|n u r IH]; intros pos; simpl; [done|].
  destruct (String.eqb n m); eauto.
Qed.

Lemma member_offset_Some a k ms m t :
  member_type ms m = Some t -> is_Some (member_offset a k ms m).
Proof.
  intros H. destruct k; simpl.
  - eapply member_type_offset; eauto.
  - rewrite H. eauto.
Qed.

(** ** The storage cost of the marker *)

(** C6, as the code has it: when the alignment of the canary aggregate
    divides the alignment of the members before it, a container that
    declares [TCON(decls)] last has the size of the same container
    without the marker if flexible array members are available; without
    them, and when the size of the canary aggregate is a multiple of the
    container's alignment, it is larger by exactly one canary aggregate. *)
Theorem TCON_sizeof a cfg tag ms decls :
  abi_ok a ->
  (alignof_members a decls | alignof_members a ms) ->
  (HAVE_FLEXIBLE_ARRAY_MEMBER cfg = false ->
   (alignof_members a ms | sizeof a (Tcomp Struct "" decls))) ->
  sizeof a (Tcomp Struct tag (msnoc ms (TCON cfg decls)))
  = sizeof a (Tcomp Struct tag ms)
    + (if HAVE_FLEXIBLE_ARRAY_MEMBER cfg then 0
       else sizeof a (Tcomp Struct "" decls)).
Proof.
  intros Hok Hdiv Hsz.
  pose proof (alignof_members_pos a Hok ms) as HA.
  pose proof (alignof_members_pos a Hok decls) as Hc.
  assert (alignof_members a decls <= alignof_members a ms) as Hle
    by (apply Z.divide_pos_le; assumption).
  cbn [sizeof]. rewrite alignof_members_msnoc, struct_end_msnoc.
  cbn [TCON snd alignof sizeof]. rewrite Z.max_l by exact Hle.
  destruct (HAVE_FLEXIBLE_ARRAY_MEMBER cfg); cbn [default id].
  - rewrite Z.mul_0_r, !Z.add_0_r. by apply align_up_finer.
  - rewrite Z.mul_1_r, align_up_add by auto.
    f_equal. by apply align_up_finer.
Qed.

Lemma lp64_ok : abi_ok lp64.
Proof. split; [intros []; simpl; lia | simpl; lia | simpl; lia]. Qed.

Lemma TCON_sizeof_witness :
  sizeof lp64 (string_list with_all) = 16 + 0 /\
  sizeof lp64 (string_list with_none) = 16 + 8.
Proof.
  split.
  - apply (TCON_sizeof lp64 with_all "string_list"
             (Mcons "raw" list_head Mnil) (Mcons "canary" char_ptr Mnil)).
    + exact lp64_ok.
    + vm_compute. exists 1. reflexivity.
    + discriminate.
  - apply (TCON_sizeof lp64 with_none "string_list"
             (Mcons "raw" list_head Mnil) (Mcons "canary" char_ptr Mnil)).
    + exact lp64_ok.
    + vm_compute. exists 1. reflexivity.
    + intros _. vm_compute. exists 1. reflexivity.
Defined.

(** C6 as stated fails: after a [char], a marker with a pointer canary
    raises the size from 1 to 8 although the array itself is empty; and
    without flexible array members a [char] canary after an [int] and a
    [char] fits into the padding and costs nothing, not one element. *)
Lemma TCON_sizeof_counterexample :
  sizeof lp64 (Tcomp Struct "s"
    (msnoc (Mcons "c" (Tint IChar) Mnil)
           (TCON with_all (Mcons "canary" char_ptr Mnil))))
  <> sizeof lp64 (Tcomp Struct "s" (Mcons "c" (Tint IChar) Mnil))
  /\
  sizeof lp64 (Tcomp Struct "t"
    (msnoc (Mcons "a" (Tint IInt) (Mcons "b" (Tint IChar) Mnil))
           (TCON with_none (Mcons "canary" (Tint IChar) Mnil))))
  <> sizeof lp64 (Tcomp Struct "t"
       (Mcons "a" (Tint IInt) (Mcons "b" (Tint IChar) Mnil)))
     + sizeof lp64 (Tcomp Struct "" (Mcons "canary" (Tint IChar) Mnil)).
Proof. split; vm_compute; discriminate. Qed.

(** ** Typing of the canary operand *)

Section Typing.
Variable a : abi.

Lemma su_eqb_refl k : su_eqb k k = true.
Proof. by destruct k. Qed.

Lemma ikind_eqb_refl k : ikind_eqb k k = true.
Proof. by destruct k. Qed.

Lemma same_type_refl_mut :
  (forall t, same_type t t = true) /\ (forall ms, same_members ms ms = true).
Proof.
  apply ctype_mutind; simpl; intros; auto.
  - apply ikind_eqb_refl.
  - rewrite H. by destruct c.
  - rewrite H. destruct n; simpl; [apply Z.eqb_refl | done].
  - by rewrite su_eqb_refl, String.eqb_refl, H.
  - by rewrite String.eqb_refl, H, H0.
Qed.

Lemma compatible_refl t : compatible t t = true.
Proof.
  induction t as [| k | c t IH | t IH n | k g ms]; simpl; auto.
  - apply ikind_eqb_refl.
  - rewrite IH. by destruct c.
  - rewrite IH. destruct n; simpl; [apply Z.eqb_refl | done].
  - rewrite su_eqb_refl, String.eqb_refl.
    rewrite (proj2 same_type_refl_mut ms). by rewrite orb_true_r.
Qed.

(** In a container that declares [canary] with type [T], the operand
    [(x)->_tcon[0].canary] designates an object of type [T], and naming
    it reports nothing beyond what [x] reports. *)
Lemma canary_of_typed x canary T :
  canary_decl x canary = Some T ->
  lty (canary_of a x canary) = Some T /\
  ldiags (canary_of a x canary) = diags x.
Proof.
  unfold canary_decl, canary_of, arrow, deref.
  destruct (ty x) as [[| | c [| | | | k g ms] | |]|]; try discriminate.
  destruct (member_type ms "_tcon")
    as [[| | | [| | | | k' g' decls] n |]|] eqn:Hm; try discriminate.
  intros HT.
  destruct (member_offset_Some a k ms "_tcon" _ Hm) as [off Hoff].
  destruct (member_offset_Some a k' decls canary _ HT) as [off' Hoff'].
  unfold member, rval, index.
  repeat (progress (rewrite ?Hm, ?Hoff, ?HT, ?Hoff';
                    cbn [lty ldiags ty diags const_int is_void])).
  by rewrite app_nil_r.
Qed.

Lemma rval_typed l T :
  lty l = Some T ->
  ty (rval a l) = Some (decay T) /\ cst (rval a l) = Dynamic /\
  diags (rval a l) = ldiags l.
Proof. intros H. unfold rval. rewrite H. by destruct T. Qed.

Lemma canary_decl_pointer x canary T :
  canary_decl x canary = Some T ->
  exists c k g ms, ty x = Some (Tptr c (Tcomp k g ms)).
Proof.
  unfold canary_decl.
  destruct (ty x) as [[| | c [| | | | k g ms] | |]|]; try discriminate.
  eauto.
Qed.
End Typing.

(** ** Evaluation of tcon_check *)

Section Evaluation.
Variable a : abi.

Lemma bind_ret {A} (m : M A) s : (w <- m ;; ret w) s = m s.
Proof. unfold bind, ret. by destruct (m s) as [[w s']|]. Qed.

(** The operand of [sizeof] is a comparison, of type [int]: the
    condition is the constant [sizeof(int)] and evaluates nothing. *)
Lemma sizeof_eq_run e1 e2 s :
  run (sizeof_ a (eq_ a e1 e2)) s = Some (Vint (sizeof_ikind a IInt), s).
Proof. reflexivity. Qed.

Lemma cond_conv_id t rt w :
  (forall k, t <> Some (Tint k)) -> cond_conv a t rt w = w.
Proof.
  intros Hk. destruct t as [[| k | | |]|]; try done.
  by destruct (Hk k).
Qed.

(** Whichever branch the condition selects, it is [x]. *)
Lemma tcon_check_run x canary e s :
  (forall k, ty x <> Some (Tint k)) ->
  run (tcon_check a x canary e) s = run x s.
Proof.
  intros Hk. unfold tcon_check, cond. cbn [run].
  unfold bind at 1. rewrite sizeof_eq_run. cbn [truth].
  destruct (negb (sizeof_ikind a IInt =? 0)).
  - unfold bind, ret. destruct (run x s) as [[w s']|]; [|done].
    by rewrite cond_conv_id.
  - unfold bind, ret. destruct (run x s) as [[w s']|]; [|done].
    by rewrite cond_conv_id.
Qed.

Lemma container_not_integer x canary T :
  canary_decl x canary = Some T -> forall k, ty x <> Some (Tint k).
Proof.
  intros H k Hx.
  destruct (canary_decl_pointer x canary T H) as (c & k' & g & ms & Hp).
  congruence.
Qed.

Lemma tcon_check_run_container x canary e T s :
  canary_decl x canary = Some T ->
  run (tcon_check a x canary e) s = run x s.
Proof. intros H. apply tcon_check_run. eapply container_not_integer; eauto. Qed.

Lemma tcon_check_ty x canary e T :
  canary_decl x canary = Some T -> ty (tcon_check a x canary e) = ty x.
Proof.
  intros H.
  destruct (canary_decl_pointer x canary T H) as (c & k & g & ms & Hp).
  unfold tcon_check, cond. cbn [ty]. rewrite Hp. cbn [cond_type].
  rewrite compatible_refl. by destruct c.
Qed.

(** What the translator reports for a check on a container: what it
    reports for the operands, and the verdict on the comparison. *)
Lemma tcon_check_diags x canary e T :
  canary_decl x canary = Some T ->
  diags (tcon_check a x canary e)
  = (diags x ++ diags e ++ eq_check (rval a (canary_of a x canary)) e)
    ++ diags x ++ diags x.
Proof.
  intros H.
  destruct (canary_decl_pointer x canary T H) as (c & k & g & ms & Hp).
  destruct (canary_of_typed a x canary T H) as [Hl Hd].
  destruct (rval_typed a _ _ Hl) as (_ & _ & Hrd).
  unfold tcon_check, cond. cbn [diags ty sizeof_ eq_ is_void is_scalar
    is_integer is_pointer orb].
  rewrite Hp. cbn [cond_type]. rewrite compatible_refl.
  rewrite Hrd, Hd. by rewrite !app_nil_r.
Qed.

Lemma eq_check_canary x canary e T U :
  canary_decl x canary = Some T -> ty e = Some U ->
  eq_check (rval a (canary_of a x canary)) e
  = if eq_operands_ok (decay T) U Dynamic (cst e) then []
    else [BadComparison (decay T) U].
Proof.
  intros H HU.
  destruct (canary_of_typed a x canary T H) as [Hl _].
  destruct (rval_typed a _ _ Hl) as (Ht & Hc & _).
  unfold eq_check. by rewrite Ht, Hc, HU.
Qed.

(** A check on clean operands is clean exactly when the operands meet
    the constraints of [==]. *)
Lemma tcon_check_clean x canary e T U :
  canary_decl x canary = Some T -> ty e = Some U ->
  diags x = [] -> diags e = [] ->
  diags (tcon_check a x canary e) = [] <->
  eq_operands_ok (decay T) U Dynamic (cst e) = true.
Proof.
  intros H HU Hx He.
  rewrite (tcon_check_diags _ _ _ _ H), (eq_check_canary _ _ _ _ _ H HU).
  rewrite Hx, He. cbn [app].
  destruct (eq_operands_ok (decay T) U Dynamic (cst e)); split; done.
Qed.
End Evaluation.

(** ** The claims about tcon_check *)

(** C1: for a container [x] and a canary that it declares,
    [tcon_check(x, canary, expr)] has the type of [x] and evaluates to
    the value of [x], whatever [expr] is and whether or not its type fits
    the canary; so whatever consumes the result, such as the call that the
    check is passed to, proceeds exactly as on [x] itself. *)
Theorem tcon_check_evaluates_to_x a x canary expr T :
  canary_decl x canary = Some T ->
  ty (tcon_check a x canary expr) = ty x /\
  (forall s, fst <$> run (tcon_check a x canary expr) s = fst <$> run x s) /\
  (forall (B : Type) (call : val -> M B) s,
     (v <- run (tcon_check a x canary expr) ;; call v) s
     = (v <- run x ;; call v) s).
Proof.
  intros H. split; [|split].
  - by apply tcon_check_ty with T.
  - intros s. by rewrite (tcon_check_run_container a x canary expr T s H).
  - intros B call s. unfold bind.
    by rewrite (tcon_check_run_container a x canary expr T s H).
Qed.

(** C5: the check costs nothing at run time.  [expr] is not evaluated:
    the state after [tcon_check(x, canary, expr)] is the state after [x]
    alone, and replacing [expr] by any other expression, with whatever
    effects or none, does not change the evaluation. *)
Theorem tcon_check_expr_unevaluated a x canary expr T :
  canary_decl x canary = Some T ->
  forall s,
    snd <$> run (tcon_check a x canary expr) s = snd <$> run x s /\
    (forall expr', run (tcon_check a x canary expr') s
                   = run (tcon_check a x canary expr) s).
Proof.
  intros H s. split.
  - by rewrite (tcon_check_run_container a x canary expr T s H).
  - intros expr'.
    by rewrite !(tcon_check_run_container a x canary _ T s H).
Qed.

(** C10: of the three occurrences of [x] in the expansion one is
    evaluated.  The condition, [sizeof] of a comparison, is a nonzero
    constant whose evaluation leaves the state as it is, and the whole
    check evaluates as a single evaluation of [x] does, effects
    included. *)
Theorem tcon_check_container_once a x canary expr T :
  abi_ok a ->
  canary_decl x canary = Some T ->
  forall s,
    (exists n, n <> 0 /\
       run (sizeof_ a (eq_ a (rval a (canary_of a x canary)) expr)) s
       = Some (Vint n, s)) /\
    run (tcon_check a x canary expr) s = run x s.
Proof.
  intros Hok H s. split.
  - exists (sizeof_ikind a IInt). split; [|apply sizeof_eq_run].
    pose proof (sizeof_int_pos a Hok). lia.
  - by apply tcon_check_run_container with T.
Qed.


(** C4: a canary declared [void *] accepts an expression of any pointer
    type: on clean operands the check reports nothing. *)
Theorem tcon_check_void_canary a x canary expr q q' u :
  canary_decl x canary = Some (Tptr q Tvoid) ->
  ty expr = Some (Tptr q' u) ->
  diags x = [] ->
  diags expr = [] ->
  diags (tcon_check a x canary expr) = [].
Proof.
  intros H HU Hx He.
  apply (tcon_check_clean a x canary expr _ _ H HU Hx He).
  simpl. by rewrite orb_true_r.
Qed.

(** ** The claims about tcon_cast *)

Lemma wrap_idem a k n : wrap a k (wrap a k n) = wrap a k n.
Proof.
  unfold wrap. destruct k;
    try (destruct (n =? 0); reflexivity);
    destruct (ik_signed a _);
    rewrite ?Z.sub_add, ?Zmod_mod; reflexivity.
Qed.

Lemma cast_val_idem a t v r :
  cast_val a t v = Some r -> cast_val a t r = Some r.
Proof.
  destruct t as [[| k | q t | |]|]; simpl.
  - by intros [= <-].
  - destruct v; intros [= <-]; simpl; by rewrite wrap_idem.
  - destruct v; intros [= <-]; done.
  - done.
  - done.
  - done.
Qed.

Lemma tcon_cast_run a cfg x canary expr T s :
  canary_decl x canary = Some T ->
  run (tcon_cast a cfg x canary expr) s
  = (v <- run expr ;;
     match cast_val a (Some (cast_target cfg T)) v with
     | Some r => ret r
     | None => fail
     end) s.
Proof.
  intros H. destruct (canary_of_typed a x canary T H) as [Hl _].
  unfold tcon_cast, cast_target.
  destruct (HAVE_TYPEOF cfg); cbn [run cast typeof_ type_name tn_ty].
  - by rewrite Hl.
  - done.
Qed.

(** C3, as the code has it: for a container that declares [canary]
    with type [T], an operand of scalar type, and a scalar target, which
    is [T] where [typeof] is available and [void *] where it is not,
    [tcon_cast(x, canary, expr)] is a cast that violates no constraint,
    its static type is the target, and it yields a value of that type:
    wherever [expr] evaluates to a scalar value, the cast evaluates, in
    the same final state, to the conversion of that value to the target. *)
Theorem tcon_cast_type a cfg x canary expr T U :
  canary_decl x canary = Some T ->
  is_scalar (if HAVE_TYPEOF cfg then T else Tptr false Tvoid) = true ->
  ty expr = Some U ->
  is_scalar U = true ->
  ty (tcon_cast a cfg x canary expr)
  = Some (if HAVE_TYPEOF cfg then T else Tptr false Tvoid) /\
  diags (tcon_cast a cfg x canary expr)
  = (if HAVE_TYPEOF cfg then diags x else []) ++ diags expr /\
  (forall s v s',
     run expr s = Some (v, s') -> is_scalar_val v = true ->
     exists r,
       run (tcon_cast a cfg x canary expr) s = Some (r, s') /\
       cast_val a (Some (if HAVE_TYPEOF cfg then T else Tptr false Tvoid)) v
       = Some r /\
       val_has_type a r (if HAVE_TYPEOF cfg then T else Tptr false Tvoid)).
Proof.
  intros H HT HU HsU.
  destruct (canary_of_typed a x canary T H) as [Hl Hd].
  split; [|split].
  - unfold tcon_cast. destruct (HAVE_TYPEOF cfg); [|reflexivity].
    cbn [ty cast typeof_ tn_ty]. rewrite Hl, HT. by rewrite orb_true_r.
  - unfold tcon_cast. destruct (HAVE_TYPEOF cfg);
      cbn [diags cast typeof_ type_name tn_ty tn_diags];
      rewrite ?Hl, ?Hd, HU; cbn [cast_check].
    + destruct T; try discriminate; rewrite HsU; cbn [andb is_scalar
        is_integer is_pointer orb]; by rewrite app_nil_r.
    + rewrite HsU. cbn [andb is_scalar is_integer is_pointer orb app].
      by rewrite app_nil_r.
  - intros s v s' Hr Hv.
    rewrite (tcon_cast_run a cfg x canary expr T s H).
    unfold bind, ret, fail, cast_target. rewrite Hr.
    destruct (if HAVE_TYPEOF cfg then T else Tptr false Tvoid)
      as [| k | q t | |]; try discriminate;
      destruct v as [n | p | |]; try discriminate; simpl;
      eexists; (split; [reflexivity | split; [reflexivity|]]);
      try exact I; apply wrap_idem.
Qed.

(** C7: [tcon_cast] only converts the value of [expr] to the target
    type.  Its evaluation is that of [expr] followed by the conversion,
    and the container is not evaluated: for two containers of the same
    canary type, however they evaluate and in whatever states, equal
    values of [expr] give equal results. *)
Theorem tcon_cast_pure a cfg x1 x2 canary expr T :
  canary_decl x1 canary = Some T ->
  canary_decl x2 canary = Some T ->
  (forall s v s',
     run (tcon_cast a cfg x1 canary expr) s = Some (v, s') <->
     exists w, run expr s = Some (w, s') /\
               cast_val a (Some (cast_target cfg T)) w = Some v) /\
  (forall s1 s2,
     fst <$> run expr s1 = fst <$> run expr s2 ->
     fst <$> run (tcon_cast a cfg x1 canary expr) s1
     = fst <$> run (tcon_cast a cfg x2 canary expr) s2).
Proof.
  intros H1 H2. split.
  - intros s v s'. rewrite (tcon_cast_run a cfg x1 canary expr T s H1).
    unfold bind, ret, fail. destruct (run expr s) as [[w s1]|].
    + destruct (cast_val a (Some (cast_target cfg T)) w) as [r|] eqn:Hcv;
        split.
      * intros [= <- <-]. eauto.
      * intros (w' & [= <- <-] & Hc). congruence.
      * discriminate.
      * intros (w' & [= <- <-] & Hc). congruence.
    + split; [discriminate | intros (w' & Hw & _); discriminate].
  - intros s1 s2 He.
    rewrite (tcon_cast_run a cfg x1 canary expr T s1 H1).
    rewrite (tcon_cast_run a cfg x2 canary expr T s2 H2).
    unfold bind, ret, fail.
    destruct (run expr s1) as [[w1 t1]|], (run expr s2) as [[w2 t2]|];
      simpl in He; try discriminate; [|done].
    injection He as ->.
    by destruct (cast_val a (Some (cast_target cfg T)) w2).
Qed.

(** C9: without [typeof] the cast does not consult the canary.  For
    any container and any canary name, declared or not, the result is the
    cast of [expr] to [void *]: the same expression for every container
    and canary, reporting what [expr] reports and the verdict on the cast
    operand alone, which is nothing for an operand of scalar type. *)
Theorem tcon_cast_fallback_unchecked a cfg x canary expr :
  HAVE_TYPEOF cfg = false ->
  ty (tcon_cast a cfg x canary expr) = Some (Tptr false Tvoid) /\
  (forall x' canary',
     tcon_cast a cfg x' canary' expr = tcon_cast a cfg x canary expr) /\
  diags (tcon_cast a cfg x canary expr)
  = diags expr ++ cast_check (Some (Tptr false Tvoid)) (ty expr) /\
  (forall U, ty expr = Some U -> is_scalar U = true ->
     diags (tcon_cast a cfg x canary expr) = diags expr).
Proof.
  intros Hc. unfold tcon_cast. rewrite Hc. repeat split.
  intros U HU Hs. cbn [diags cast type_name tn_ty tn_diags app].
  rewrite HU. cbn [cast_check is_scalar is_integer is_pointer orb andb].
  rewrite Hs. apply app_nil_r.
Qed.

(** ** The marker is never accessed *)

(** C8: neither macro reads or writes the marker.  For any range of
    bytes, such as those of the [_tcon] member of the container: if
    evaluating [x] alone leaves the range as it is and makes no access to
    it, so does [tcon_check(x, canary, expr)], wherever it does not
    evaluate to nothing; and if evaluating [expr] alone does, so does
    [tcon_cast(x, canary, expr)].  Nothing is assumed of the contents of
    the range, which need not even be mapped. *)
Theorem tcon_marker_untouched a cfg x canary expr T lo hi s :
  canary_decl x canary = Some T ->
  ((forall v s', run x s = Some (v, s') -> untouched lo hi s s') ->
   forall v s', run (tcon_check a x canary expr) s = Some (v, s') ->
                untouched lo hi s s') /\
  ((forall v s', run expr s = Some (v, s') -> untouched lo hi s s') ->
   forall v s', run (tcon_cast a cfg x canary expr) s = Some (v, s') ->
                untouched lo hi s s').
Proof.
  intros H. split.
  - intros Hx v s'. rewrite (tcon_check_run_container a x canary expr T s H).
    apply Hx.
  - intros He v s'. rewrite (tcon_cast_run a cfg x canary expr T s H).
    unfold bind, ret, fail. destruct (run expr s) as [[w s1]|] eqn:Hr; [|done].
    destruct (cast_val a (Some (cast_target cfg T)) w); [|done].
    intros [= <- <-]. by apply (He w).
Qed.

(** ** The macros on the header's example *)

(** Were the comparison evaluated, it would read the marker: eight bytes
    at 4112 where the marker has storage, and nothing it may read where
    the marker is a flexible array member.  Under [sizeof] neither
    happens. *)
Example comparison_reads_marker :
  (trace ∘ snd) <$>
    run (eq_ lp64 (rval lp64 (canary_of lp64 (the_list with_none) "canary"))
             the_string) list_state
  = Some [Rd 4112 8].
Proof. vm_compute. reflexivity. Qed.

Example comparison_without_storage :
  run (eq_ lp64 (rval lp64 (canary_of lp64 (the_list with_all) "canary"))
           the_string) empty_state
  = None.
Proof. vm_compute. reflexivity. Qed.

Example check_without_storage :
  run (tcon_check lp64 (the_list with_all) "canary" the_string) empty_state
  = Some (Vptr 4096, empty_state).
Proof. reflexivity. Qed.

(** A store in the container argument happens once, one in the checked
    expression not at all. *)
Example check_effects :
  (trace ∘ snd) <$>
    run (tcon_check lp64 (storing 0 [1] (the_list with_all)) "canary"
           (storing 64 [9] the_string)) empty_state
  = Some [Wr 0 [1]].
Proof. vm_compute. reflexivity. Qed.

Example cast_effects :
  (trace ∘ snd) <$>
    run (tcon_cast lp64 with_all (storing 0 [1] (the_list with_all)) "canary"
           (storing 64 [9] the_string)) empty_state
  = Some [Wr 64 [9]].
Proof. vm_compute. reflexivity. Qed.

Lemma untouched_refl lo hi s : untouched lo hi s s.
Proof. split; [done|]. exists []. split; [done | constructor]. Qed.

(** ** Instances *)

Lemma tcon_check_evaluates_to_x_witness :
  canary_decl (the_list with_all) "canary" = Some char_ptr /\
  ty (tcon_check lp64 (the_list with_all) "canary" a_long)
  = ty (the_list with_all) /\
  (forall s, fst <$> run (tcon_check lp64 (the_list with_all) "canary" a_long) s
             = fst <$> run (the_list with_all) s) /\
  (forall (B : Type) (call : val -> M B) s,
     (v <- run (tcon_check lp64 (the_list with_all) "canary" a_long) ;; call v) s
     = (v <- run (the_list with_all) ;; call v) s).
Proof.
  split; [reflexivity|].
  apply (tcon_check_evaluates_to_x lp64 (the_list with_all) "canary" a_long
           char_ptr).
  reflexivity.
Defined.

Lemma tcon_check_expr_unevaluated_witness :
  snd <$> run (tcon_check lp64 (the_list with_all) "canary"
                 (storing 64 [9] the_string)) empty_state
  = snd <$> run (the_list with_all) empty_state /\
  (forall expr',
     run (tcon_check lp64 (the_list with_all) "canary" expr') empty_state
     = run (tcon_check lp64 (the_list with_all) "canary"
              (storing 64 [9] the_string)) empty_state).
Proof.
  apply (tcon_check_expr_unevaluated lp64 (the_list with_all) "canary"
           (storing 64 [9] the_string) char_ptr).
  reflexivity.
Defined.

Lemma tcon_check_container_once_witness :
  (exists n, n <> 0 /\
     run (sizeof_ lp64 (eq_ lp64
            (rval lp64 (canary_of lp64 (storing 0 [1] (the_list with_all))
                          "canary"))
            the_string)) empty_state
     = Some (Vint n, empty_state)) /\
  run (tcon_check lp64 (storing 0 [1] (the_list with_all)) "canary" the_string)
      empty_state
  = run (storing 0 [1] (the_list with_all)) empty_state.
Proof.
  apply (tcon_check_container_once lp64 (storing 0 [1] (the_list with_all))
           "canary" the_string char_ptr).
  - exact lp64_ok.
  - reflexivity.
Defined.



Lemma tcon_check_void_canary_witness :
  diags (tcon_check lp64 the_voids "canary" the_string) = [].
Proof.
  apply (tcon_check_void_canary lp64 the_voids "canary" the_string
           false false (Tint IChar)); reflexivity.
Defined.

Lemma tcon_cast_type_witness :
  (ty (tcon_cast lp64 with_all the_map "int_canary" a_long)
   = Some (Tint IInt) /\
   diags (tcon_cast lp64 with_all the_map "int_canary" a_long) = [] /\
   exists r,
     run (tcon_cast lp64 with_all the_map "int_canary" a_long) empty_state
     = Some (r, empty_state) /\
     cast_val lp64 (Some (Tint IInt)) (Vint 7) = Some r /\
     val_has_type lp64 r (Tint IInt)) /\
  ty (tcon_cast lp64 with_none the_names "canary" the_string)
  = Some (Tptr false Tvoid).
Proof.
  split.
  - pose proof (tcon_cast_type lp64 with_all the_map "int_canary" a_long
                  (Tint IInt) (Tint ILong) eq_refl eq_refl eq_refl eq_refl)
      as (Hty & Hd & Hv).
    split; [exact Hty|]. split; [exact Hd|].
    apply (Hv empty_state (Vint 7) empty_state); reflexivity.
  - apply (tcon_cast_type lp64 with_none the_names "canary" the_string
             (Tarray (Tint IChar) (Some 4)) char_ptr); reflexivity.
Defined.

(** C3 as stated fails for a canary that is not scalar: with [typeof],
    the cast to the type of [char canary[4]] names an array type, is
    reported, has no type and yields no value. *)
Lemma tcon_cast_type_counterexample :
  canary_decl the_names "canary" = Some (Tarray (Tint IChar) (Some 4)) /\
  ty (tcon_cast lp64 with_all the_names "canary" the_string)
  <> Some (Tarray (Tint IChar) (Some 4)) /\
  diags (tcon_cast lp64 with_all the_names "canary" the_string) <> [] /\
  run (tcon_cast lp64 with_all the_names "canary" the_string) empty_state
  = None.
Proof. repeat split; vm_compute; discriminate. Qed.

Lemma tcon_cast_pure_witness :
  fst <$> run (tcon_cast lp64 with_all (the_list with_all) "canary" a_long)
              empty_state
  = fst <$> run (tcon_cast lp64 with_all (storing 0 [1] (the_list with_all))
                   "canary" a_long) list_state.
Proof.
  apply (tcon_cast_pure lp64 with_all (the_list with_all)
           (storing 0 [1] (the_list with_all)) "canary" a_long char_ptr);
    reflexivity.
Defined.

Lemma tcon_cast_fallback_unchecked_witness :
  ty (tcon_cast lp64 with_none the_map "int_canary" the_string)
  = Some (Tptr false Tvoid) /\
  (forall x' canary',
     tcon_cast lp64 with_none x' canary' the_string
     = tcon_cast lp64 with_none the_map "int_canary" the_string) /\
  diags (tcon_cast lp64 with_none the_map "int_canary" the_string)
  = diags the_string ++ cast_check (Some (Tptr false Tvoid)) (ty the_string) /\
  (forall U, ty the_string = Some U -> is_scalar U = true ->
     diags (tcon_cast lp64 with_none the_map "int_canary" the_string)
     = diags the_string).
Proof.
  apply (tcon_cast_fallback_unchecked lp64 with_none the_map "int_canary"
           the_string).
  reflexivity.
Defined.

Lemma tcon_marker_untouched_witness :
  untouched 4112 4120 list_state list_state /\
  untouched 4112 4120 empty_state
    {| mem := <[64 := 9]> ∅; trace := [Wr 64 [9]] |}.
Proof.
  split.
  - apply (proj1 (tcon_marker_untouched lp64 with_none (the_list with_none)
                    "canary" the_string char_ptr 4112 4120 list_state eq_refl))
      with (v := Vptr 4096).
    + intros v s' [= <- <-]. apply untouched_refl.
    + reflexivity.
  - apply (proj2 (tcon_marker_untouched lp64 with_all (the_list with_all)
                    "canary" (storing 64 [9] the_string) char_ptr 4112 4120
                    empty_state eq_refl))
      with (v := Vptr 8192).
    + intros v s' [= <- <-]. split.
      * intros p Hp. cbn. apply lookup_insert_ne. lia.
      * exists [Wr 64 [9]]. split; [reflexivity|].
        repeat constructor. simpl. lia.
    + reflexivity.
Defined.

(** * Further properties of the header *)

(** ** TCON as the last member *)

Lemma member_type_msnoc ms d m t :
  member_type ms m = Some t -> member_type (msnoc ms d) m = Some t.
Proof.
  induction ms as [|n u r IH]; simpl; [done|].
  destruct (String.eqb n m); auto.
Qed.

Lemma member_type_msnoc_new ms d m :
  member_type ms m = None ->
  member_type (msnoc ms d) m = if String.eqb (fst d) m then Some (snd d) else None.
Proof.
  induction ms as [|n u r IH]; simpl; [done|].
  destruct (String.eqb n m); [done | auto].
Qed.

Lemma struct_offset_msnoc a ms d m t pos :
  member_type ms m = Some t ->
  struct_offset a (msnoc ms d) m pos = struct_offset a ms m pos.
Proof.
  revert pos. induction ms as [|n u r IH]; intros pos; simpl; [done|].
  destruct (String.eqb n m); auto.
Qed.

Lemma struct_offset_msnoc_new a ms d pos :
  member_type ms (fst d) = None ->
  struct_offset a (msnoc ms d) (fst d) pos
  = Some (align_up (struct_end a ms pos) (alignof a (snd d))).
Proof.
  revert pos. induction ms as [|n u r IH]; intros pos; simpl.
  - by rewrite String.eqb_refl.
  - destruct (String.eqb n (fst d)); [done | auto].
Qed.

(** X1: declaring the marker last leaves every other member where it
    was: each member of the container keeps its type and its offset. *)
Theorem TCON_keeps_members a cfg k ms decls m t :
  member_type ms m = Some t ->
  member_type (msnoc ms (TCON cfg decls)) m = Some t /\
  member_offset a k (msnoc ms (TCON cfg decls)) m = member_offset a k ms m.
Proof.
  intros H. split; [by apply member_type_msnoc|].
  destruct k; simpl.
  - by apply struct_offset_msnoc with t.
  - by rewrite (member_type_msnoc ms _ m t H), H.
Qed.

(** X2: in a struct that has no member [_tcon] of its own, the marker is
    the member [_tcon], an array of the canary aggregate, and lies at the
    first position after the other members that suits the alignment of the
    canaries: it overlaps none of them. *)
Theorem TCON_marker_at_end a cfg ms decls :
  abi_ok a ->
  member_type ms "_tcon" = None ->
  member_type (msnoc ms (TCON cfg decls)) "_tcon"
  = Some (Tarray (Tcomp Struct "" decls)
            (if HAVE_FLEXIBLE_ARRAY_MEMBER cfg then None else Some 1)) /\
  exists off,
    member_offset a Struct (msnoc ms (TCON cfg decls)) "_tcon" = Some off /\
    off = align_up (struct_end a ms 0) (alignof_members a decls) /\
    struct_end a ms 0 <= off < struct_end a ms 0 + alignof_members a decls.
Proof.
  intros Hok Hm. split.
  - by rewrite (member_type_msnoc_new ms (TCON cfg decls) "_tcon" Hm).
  - eexists. split; [|split; [reflexivity|]].
    + apply (struct_offset_msnoc_new a ms (TCON cfg decls) 0 Hm).
    + apply align_up_bounds. by apply alignof_members_pos.
Qed.

(** X3: a pointer to a struct that ends in [TCON(decls)] declares
    exactly the canaries of [decls], with their types. *)
Theorem TCON_declares cfg x q k g ms decls canary :
  ty x = Some (Tptr q (Tcomp k g (msnoc ms (TCON cfg decls)))) ->
  member_type ms "_tcon" = None ->
  canary_decl x canary = member_type decls canary.
Proof.
  intros Hx Hm. unfold canary_decl. rewrite Hx.
  by rewrite (member_type_msnoc_new ms (TCON cfg decls) "_tcon" Hm).
Qed.

(** X4: with flexible array members, and alignments of which one
    divides the other (as powers of two do), the size of the container
    with the marker is the size without it rounded up to the alignment of
    the canaries: the marker adds less than that alignment. *)
Theorem TCON_sizeof_flexible a cfg tag ms decls :
  abi_ok a ->
  HAVE_FLEXIBLE_ARRAY_MEMBER cfg = true ->
  (alignof_members a decls | alignof_members a ms) \/
  (alignof_members a ms | alignof_members a decls) ->
  let without := sizeof a (Tcomp Struct tag ms) in
  let with_marker := sizeof a (Tcomp Struct tag (msnoc ms (TCON cfg decls))) in
  with_marker = align_up without (alignof_members a decls) /\
  without <= with_marker < without + alignof_members a decls.
Proof.
  intros Hok Hfam Hdiv without with_marker.
  pose proof (alignof_members_pos a Hok ms) as HA.
  pose proof (alignof_members_pos a Hok decls) as Hc.
  assert (with_marker = align_up without (alignof_members a decls)) as Heq.
  { subst without with_marker. cbn [sizeof].
    rewrite alignof_members_msnoc, struct_end_msnoc.
    cbn [TCON snd alignof sizeof]. rewrite Hfam. cbn [default].
    rewrite Z.mul_0_r, Z.add_0_r.
    destruct Hdiv as [Hd | Hd].
    - rewrite Z.max_l by (apply Z.divide_pos_le; assumption).
      rewrite align_up_finer by assumption.
      symmetry. apply align_up_fixed; [assumption|].
      etrans; [exact Hd | apply align_up_multiple].
    - rewrite Z.max_r by (apply Z.divide_pos_le; assumption).
      rewrite (align_up_finer _ (alignof_members a ms)) by assumption.
      apply align_up_fixed; [assumption | apply align_up_multiple]. }
  split; [exact Heq|]. rewrite Heq. by apply align_up_bounds.
Qed.

(** ** Misuse that the macros report *)

(** The operators one at a time. *)
Lemma deref_pointer x q t :
  ty x = Some (Tptr q t) ->
  lty (deref x) = Some t /\ ldiags (deref x) = diags x.
Proof. intros H. unfold deref. by rewrite H. Qed.

Lemma deref_not_pointer x k g ms :
  ty x = Some (Tcomp k g ms) ->
  lty (deref x) = None /\
  ldiags (deref x) = diags x ++ [NotAPointer (Tcomp k g ms)].
Proof. intros H. unfold deref. by rewrite H. Qed.

Lemma member_found a l k g ms m t :
  lty l = Some (Tcomp k g ms) -> member_type ms m = Some t ->
  lty (member a l m) = Some t /\ ldiags (member a l m) = ldiags l.
Proof.
  intros Hl Hm. destruct (member_offset_Some a k ms m t Hm) as [off Hoff].
  unfold member. by rewrite Hl, Hm, Hoff.
Qed.

Lemma member_missing a l k g ms m :
  lty l = Some (Tcomp k g ms) -> member_type ms m = None ->
  lty (member a l m) = None /\
  ldiags (member a l m) = ldiags l ++ [NoSuchMember m].
Proof. intros Hl Hm. unfold member. by rewrite Hl, Hm. Qed.

Lemma member_untyped a l m :
  lty l = None ->
  lty (member a l m) = None /\ ldiags (member a l m) = ldiags l.
Proof. intros Hl. unfold member. by rewrite Hl. Qed.

Lemma rval_untyped a l :
  lty l = None -> ty (rval a l) = None /\ diags (rval a l) = ldiags l.
Proof. intros Hl. unfold rval. by rewrite Hl. Qed.

Lemma index_zero a e q k g ms :
  ty e = Some (Tptr q (Tcomp k g ms)) ->
  lty (index a e (const_int 0)) = Some (Tcomp k g ms) /\
  ldiags (index a e (const_int 0)) = diags e.
Proof.
  intros He. unfold index. rewrite He. cbn [ty const_int is_void lty ldiags diags].
  by rewrite app_nil_r.
Qed.

Lemma index_untyped a e i :
  ty e = None ->
  lty (index a e i) = None /\ ldiags (index a e i) = diags e ++ diags i.
Proof. intros He. unfold index. by rewrite He. Qed.

(** Once [(x)->_tcon] has no type, neither has the canary operand, and
    nothing more is reported for it. *)
Lemma canary_of_untyped a x canary :
  lty (arrow a x "_tcon") = None ->
  lty (canary_of a x canary) = None /\
  ldiags (canary_of a x canary) = ldiags (arrow a x "_tcon").
Proof.
  intros H. unfold canary_of.
  destruct (rval_untyped a _ H) as [H1 D1].
  destruct (index_untyped a _ (const_int 0) H1) as [H2 D2].
  destruct (member_untyped a _ canary H2) as [H3 D3].
  split; [exact H3|]. rewrite D3, D2, D1. cbn [diags const_int].
  apply app_nil_r.
Qed.

Lemma canary_of_undeclared a x canary q k g ms k' g' decls n :
  ty x = Some (Tptr q (Tcomp k g ms)) ->
  member_type ms "_tcon" = Some (Tarray (Tcomp k' g' decls) n) ->
  member_type decls canary = None ->
  lty (canary_of a x canary) = None /\
  ldiags (canary_of a x canary) = diags x ++ [NoSuchMember canary].
Proof.
  intros Hx Hm Hc. unfold canary_of, arrow.
  destruct (deref_pointer x _ _ Hx) as [H0 D0].
  destruct (member_found a _ _ _ _ "_tcon" _ H0 Hm) as [H1 D1].
  destruct (rval_typed a _ _ H1) as (H2 & _ & D2). cbn [decay] in H2.
  destruct (index_zero a _ _ _ _ _ H2) as [H3 D3].
  destruct (member_missing a _ _ _ _ canary H3 Hc) as [H4 D4].
  split; [exact H4|]. by rewrite D4, D3, D2, D1, D0.
Qed.

Lemma cond_type_comp a k g ms c1 c2 :
  cond_type a (Tcomp k g ms) (Tcomp k g ms) c1 c2 = Some (Tcomp k g ms).
Proof.
  unfold cond_type.
  by rewrite (compatible_refl (Tcomp k g ms)).
Qed.

Lemma cond_type_ptr a q t c1 c2 :
  cond_type a (Tptr q t) (Tptr q t) c1 c2 = Some (Tptr q t).
Proof. unfold cond_type. rewrite compatible_refl. by destruct q. Qed.

(** What a check reports when its canary operand has no type: what
    naming the operand reports, and what [x] and [expr] report. *)
Lemma tcon_check_diags_untyped a x canary expr t :
  lty (canary_of a x canary) = None ->
  ty x = Some t ->
  cond_type a t t (cst x) (cst x) = Some t ->
  diags (tcon_check a x canary expr)
  = (ldiags (canary_of a x canary) ++ diags expr) ++ diags x ++ diags x.
Proof.
  intros Hl Hx Hc.
  destruct (rval_untyped a _ Hl) as [Ht Hd].
  unfold tcon_check, cond. cbn [diags ty sizeof_ eq_ is_void is_scalar
    is_integer is_pointer orb].
  rewrite Hx, Hc. unfold eq_check. rewrite Ht, Hd.
  by rewrite !app_nil_r.
Qed.

(** X5: a canary name that the container does not declare is reported
    as a missing member, once and whatever the expression is, by the check
    and, where it names the canary, by the cast; such a cast has no type
    and no value. *)
Theorem tcon_undeclared_canary a cfg x canary expr q k g ms k' g' decls n :
  ty x = Some (Tptr q (Tcomp k g ms)) ->
  member_type ms "_tcon" = Some (Tarray (Tcomp k' g' decls) n) ->
  member_type decls canary = None ->
  diags x = [] ->
  diags expr = [] ->
  diags (tcon_check a x canary expr) = [NoSuchMember canary] /\
  (HAVE_TYPEOF cfg = true ->
   diags (tcon_cast a cfg x canary expr) = [NoSuchMember canary] /\
   ty (tcon_cast a cfg x canary expr) = None /\
   forall s, run (tcon_cast a cfg x canary expr) s = None).
Proof.
  intros Hx Hm Hc Hdx Hde.
  destruct (canary_of_undeclared a x canary _ _ _ _ _ _ _ _ Hx Hm Hc)
    as [Hl Hd].
  split.
  - rewrite (tcon_check_diags_untyped a x canary expr _ Hl Hx
               (cond_type_ptr a _ _ _ _)).
    by rewrite Hd, Hdx, Hde.
  - intros Ht. unfold tcon_cast. rewrite Ht.
    cbn [diags ty run cast typeof_ tn_ty tn_diags]. rewrite Hl, Hd, Hdx, Hde.
    repeat split. intros s. unfold bind, fail.
    by destruct (run expr s) as [[v s']|].
Qed.

(** X6: the check needs the address of a struct with a marker.  Given a
    pointer to a struct without [_tcon], it reports the missing member;
    given the struct itself instead of its address, it reports the operand
    of [->]. *)
Theorem tcon_check_not_a_container a x canary expr k g ms :
  diags x = [] ->
  diags expr = [] ->
  (forall q, ty x = Some (Tptr q (Tcomp k g ms)) ->
     member_type ms "_tcon" = None ->
     diags (tcon_check a x canary expr) = [NoSuchMember "_tcon"]) /\
  (ty x = Some (Tcomp k g ms) ->
     diags (tcon_check a x canary expr) = [NotAPointer (Tcomp k g ms)]).
Proof.
  intros Hdx Hde. split.
  - intros q Hx Hm.
    destruct (deref_pointer x _ _ Hx) as [H0 D0].
    destruct (member_missing a _ _ _ _ "_tcon" H0 Hm) as [H1 D1].
    fold (arrow a x "_tcon") in H1, D1.
    destruct (canary_of_untyped a x canary H1) as [Hl Hd].
    rewrite (tcon_check_diags_untyped a x canary expr _ Hl Hx
               (cond_type_ptr a _ _ _ _)).
    by rewrite Hd, D1, D0, Hdx, Hde.
  - intros Hx.
    destruct (deref_not_pointer x _ _ _ Hx) as [H0 D0].
    destruct (member_untyped a _ "_tcon" H0) as [H1 D1].
    fold (arrow a x "_tcon") in H1, D1.
    destruct (canary_of_untyped a x canary H1) as [Hl Hd].
    rewrite (tcon_check_diags_untyped a x canary expr _ Hl Hx
               (cond_type_comp a _ _ _ _ _)).
    by rewrite Hd, D1, D0, Hdx, Hde.
Qed.

(** ** Chaining *)

(** X7: checks chain.  A check of a second canary on the result of a
    first check still finds the container's canaries, has the type of [x]
    and evaluates as [x] alone does; on clean operands it is clean exactly
    when each of the two checks, made on [x] by itself, is clean. *)
Theorem tcon_check_chain a x c1 c2 e1 e2 T1 T2 U1 U2 :
  canary_decl x c1 = Some T1 ->
  canary_decl x c2 = Some T2 ->
  ty e1 = Some U1 ->
  ty e2 = Some U2 ->
  diags x = [] ->
  diags e1 = [] ->
  diags e2 = [] ->
  let inner := tcon_check a x c1 e1 in
  canary_decl inner c2 = Some T2 /\
  ty (tcon_check a inner c2 e2) = ty x /\
  (forall s, run (tcon_check a inner c2 e2) s = run x s) /\
  (diags (tcon_check a inner c2 e2) = [] <->
   diags (tcon_check a x c1 e1) = [] /\ diags (tcon_check a x c2 e2) = []).
Proof.
  intros H1 H2 HU1 HU2 Hx He1 He2 inner.
  assert (ty inner = ty x) as Hty by (by apply tcon_check_ty with T1).
  assert (canary_decl inner c2 = Some T2) as Hin
    by (unfold canary_decl; rewrite Hty; exact H2).
  split; [exact Hin|]. split; [|split].
  - rewrite (tcon_check_ty a inner c2 e2 T2 Hin). exact Hty.
  - intros s. rewrite (tcon_check_run_container a inner c2 e2 T2 s Hin).
    by apply tcon_check_run_container with T1.
  - rewrite (tcon_check_clean a x c2 e2 T2 U2 H2 HU2 Hx He2).
    fold inner.
    rewrite (tcon_check_diags a inner c2 e2 T2 Hin).
    rewrite (eq_check_canary a inner c2 e2 T2 U2 Hin HU2), He2.
    cbn [app].
    destruct (eq_operands_ok (decay T2) U2 Dynamic (cst e2)).
    + split.
      * intros Hd. split; [|done].
        apply app_eq_nil in Hd as [Hd _].
        by apply app_eq_nil in Hd as [Hd _].
      * intros [-> _]. reflexivity.
    + split.
      * intros Hd. apply app_eq_nil in Hd as [Hd _].
        apply app_eq_nil in Hd as [_ Hd]. discriminate.
      * intros [_ ?]. discriminate.
Qed.

(** X8: a member reached through a check is the member reached through
    [x], as in [&tcon_check((h), canary, (n))->raw]: the same type and the
    same address, computed by the same evaluation. *)
Theorem tcon_check_arrow a x canary expr T m :
  canary_decl x canary = Some T ->
  lty (arrow a (tcon_check a x canary expr) m) = lty (arrow a x m) /\
  (forall s, laddr (arrow a (tcon_check a x canary expr) m) s
             = laddr (arrow a x m) s).
Proof.
  intros H.
  pose proof (tcon_check_ty a x canary expr T H) as Hty.
  destruct (canary_decl_pointer x canary T H) as (q & k & g & ms & Hx).
  unfold arrow, deref. rewrite Hty, Hx. unfold member. cbn [lty].
  destruct (member_type ms m) as [t|]; [|done].
  destruct (member_offset a k ms m) as [off|]; [|done].
  split; [done|]. intros s. cbn [laddr]. unfold bind.
  by rewrite (tcon_check_run_container a x canary expr T s H).
Qed.

(** ** More on tcon_cast *)

(** X9: with [typeof], or for a canary of pointer type, what
    [tcon_cast] yields passes [tcon_check] against the same canary; the
    [void *] of the fallback does not pass an integer canary. *)
Theorem tcon_cast_then_check a cfg x canary expr T U :
  canary_decl x canary = Some T ->
  is_scalar T = true ->
  ty expr = Some U ->
  is_scalar U = true ->
  diags x = [] ->
  diags expr = [] ->
  diags (tcon_check a x canary (tcon_cast a cfg x canary expr)) = [] <->
  HAVE_TYPEOF cfg = true \/ is_pointer T = true.
Proof.
  intros H HT HU HsU Hx He.
  destruct (canary_of_typed a x canary T H) as [Hl Hd].
  assert (ty (tcon_cast a cfg x canary expr) = Some (cast_target cfg T)) as Hty.
  { unfold tcon_cast, cast_target. destruct (HAVE_TYPEOF cfg); [|reflexivity].
    cbn [ty cast typeof_ tn_ty]. rewrite Hl, HT. by rewrite orb_true_r. }
  assert (diags (tcon_cast a cfg x canary expr) = []) as Hdc.
  { unfold tcon_cast. destruct (HAVE_TYPEOF cfg);
      cbn [diags cast typeof_ type_name tn_ty tn_diags];
      rewrite ?Hl, ?Hd, ?Hx, He, HU; cbn [app cast_check].
    - destruct T; try discriminate; by rewrite HsU.
    - by rewrite HsU. }
  rewrite (tcon_check_clean a x canary _ T _ H Hty Hx Hdc).
  unfold cast_target. destruct (HAVE_TYPEOF cfg).
  - destruct T; try discriminate; simpl.
    + split; auto.
    + rewrite compatible_refl. split; auto.
  - destruct T; try discriminate; simpl.
    + split; [discriminate | intros [? | ?]; discriminate].
    + rewrite orb_true_r. split; auto.
Qed.

(** X11: for a canary of pointer type the two variants of [tcon_cast]
    evaluate alike, and a pointer value passes through unchanged. *)
Theorem tcon_cast_pointer_canary a cfg cfg' x canary expr T :
  canary_decl x canary = Some T ->
  is_pointer T = true ->
  (forall s, run (tcon_cast a cfg x canary expr) s
             = run (tcon_cast a cfg' x canary expr) s) /\
  (forall s p s', run expr s = Some (Vptr p, s') ->
                  run (tcon_cast a cfg x canary expr) s = Some (Vptr p, s')).
Proof.
  intros H HT. destruct T as [| | q t | |]; try discriminate. split.
  - intros s. rewrite !(tcon_cast_run a _ x canary expr _ s H).
    unfold cast_target. by destruct (HAVE_TYPEOF cfg), (HAVE_TYPEOF cfg').
  - intros s p s' Hr. rewrite (tcon_cast_run a _ x canary expr _ s H).
    unfold bind. rewrite Hr. unfold cast_target.
    by destruct (HAVE_TYPEOF cfg).
Qed.

(** X12: casting twice is casting once: [tcon_cast] of a [tcon_cast]
    evaluates as the inner one alone, for any container and canary. *)
Theorem tcon_cast_idempotent a cfg x canary expr s :
  run (tcon_cast a cfg x canary (tcon_cast a cfg x canary expr)) s
  = run (tcon_cast a cfg x canary expr) s.
Proof.
  unfold tcon_cast. destruct (HAVE_TYPEOF cfg); cbn [run cast];
    unfold bind, ret, fail; destruct (run expr s) as [[v s']|]; try done.
  - destruct (cast_val a _ v) as [r|] eqn:Hc; [|done].
    by rewrite (cast_val_idem a _ v r Hc).
  - destruct (cast_val a _ v) as [r|] eqn:Hc; [|done].
    by rewrite (cast_val_idem a _ v r Hc).
Qed.

(** ** Instances of the further properties *)

Lemma TCON_keeps_members_witness :
  member_type (msnoc (Mcons "raw" list_head Mnil)
                 (TCON with_none (Mcons "canary" char_ptr Mnil))) "raw"
  = Some list_head /\
  member_offset lp64 Struct
    (msnoc (Mcons "raw" list_head Mnil)
       (TCON with_none (Mcons "canary" char_ptr Mnil))) "raw"
  = member_offset lp64 Struct (Mcons "raw" list_head Mnil) "raw".
Proof.
  apply (TCON_keeps_members lp64 with_none Struct (Mcons "raw" list_head Mnil)
           (Mcons "canary" char_ptr Mnil) "raw" list_head).
  reflexivity.
Defined.

Lemma TCON_marker_at_end_witness :
  member_type (msnoc (Mcons "c" (Tint IChar) Mnil)
                 (TCON with_all (Mcons "canary" char_ptr Mnil))) "_tcon"
  = Some (Tarray (Tcomp Struct "" (Mcons "canary" char_ptr Mnil)) None) /\
  exists off,
    member_offset lp64 Struct
      (msnoc (Mcons "c" (Tint IChar) Mnil)
         (TCON with_all (Mcons "canary" char_ptr Mnil))) "_tcon" = Some off /\
    off = align_up (struct_end lp64 (Mcons "c" (Tint IChar) Mnil) 0)
            (alignof_members lp64 (Mcons "canary" char_ptr Mnil)) /\
    struct_end lp64 (Mcons "c" (Tint IChar) Mnil) 0 <= off
    < struct_end lp64 (Mcons "c" (Tint IChar) Mnil) 0
      + alignof_members lp64 (Mcons "canary" char_ptr Mnil).
Proof.
  apply (TCON_marker_at_end lp64 with_all (Mcons "c" (Tint IChar) Mnil)
           (Mcons "canary" char_ptr Mnil)).
  - exact lp64_ok.
  - reflexivity.
Defined.

Lemma TCON_declares_witness :
  canary_decl the_map "int_canary"
  = member_type (Mcons "charp_canary" char_ptr
                   (Mcons "int_canary" (Tint IInt) Mnil)) "int_canary".
Proof.
  apply (TCON_declares with_all the_map false Struct "int_to_string_map"
           (Mcons "raw" struct_map Mnil)); reflexivity.
Defined.

Lemma TCON_sizeof_flexible_witness :
  sizeof lp64 (Tcomp Struct "s"
    (msnoc (Mcons "c" (Tint IChar) Mnil)
           (TCON with_all (Mcons "canary" char_ptr Mnil))))
  = align_up (sizeof lp64 (Tcomp Struct "s" (Mcons "c" (Tint IChar) Mnil)))
      (alignof_members lp64 (Mcons "canary" char_ptr Mnil)) /\
  sizeof lp64 (Tcomp Struct "s" (Mcons "c" (Tint IChar) Mnil))
  <= sizeof lp64 (Tcomp Struct "s"
       (msnoc (Mcons "c" (Tint IChar) Mnil)
              (TCON with_all (Mcons "canary" char_ptr Mnil))))
  < sizeof lp64 (Tcomp Struct "s" (Mcons "c" (Tint IChar) Mnil))
    + alignof_members lp64 (Mcons "canary" char_ptr Mnil).
Proof.
  apply (TCON_sizeof_flexible lp64 with_all "s" (Mcons "c" (Tint IChar) Mnil)
           (Mcons "canary" char_ptr Mnil)).
  - exact lp64_ok.
  - reflexivity.
  - right. exists 8. reflexivity.
Defined.

Lemma tcon_undeclared_canary_witness :
  diags (tcon_check lp64 (the_list with_all) "canar" the_string)
  = [NoSuchMember "canar"] /\
  (HAVE_TYPEOF with_all = true ->
   diags (tcon_cast lp64 with_all (the_list with_all) "canar" the_string)
   = [NoSuchMember "canar"] /\
   ty (tcon_cast lp64 with_all (the_list with_all) "canar" the_string) = None /\
   forall s,
     run (tcon_cast lp64 with_all (the_list with_all) "canar" the_string) s
     = None).
Proof.
  apply (tcon_undeclared_canary lp64 with_all (the_list with_all) "canar"
           the_string false Struct "string_list"
           (msnoc (Mcons "raw" list_head Mnil)
                  (TCON with_all (Mcons "canary" char_ptr Mnil)))
           Struct "" (Mcons "canary" char_ptr Mnil) None);
    reflexivity.
Defined.

Lemma tcon_check_not_a_container_witness :
  diags (tcon_check lp64 (value_of (Tptr false list_head) (Vptr 4096))
           "canary" the_string)
  = [NoSuchMember "_tcon"] /\
  diags (tcon_check lp64 (value_of (string_list with_all) (Vagg []))
           "canary" the_string)
  = [NotAPointer (string_list with_all)].
Proof.
  split.
  - apply (proj1 (tcon_check_not_a_container lp64
                    (value_of (Tptr false list_head) (Vptr 4096)) "canary"
                    the_string Struct "list_head"
                    (Mcons "prev" (Tptr false (Tcomp Struct "list_head" Mnil))
                    (Mcons "next" (Tptr false (Tcomp Struct "list_head" Mnil))
                       Mnil))
                    eq_refl eq_refl) false); reflexivity.
  - apply (proj2 (tcon_check_not_a_container lp64
                    (value_of (string_list with_all) (Vagg [])) "canary"
                    the_string Struct "string_list"
                    (msnoc (Mcons "raw" list_head Mnil)
                           (TCON with_all (Mcons "canary" char_ptr Mnil)))
                    eq_refl eq_refl)). reflexivity.
Defined.

Lemma tcon_check_chain_witness :
  canary_decl (tcon_check lp64 the_map "charp_canary" the_string) "int_canary"
  = Some (Tint IInt) /\
  ty (tcon_check lp64 (tcon_check lp64 the_map "charp_canary" the_string)
        "int_canary" a_long) = ty the_map /\
  (forall s,
     run (tcon_check lp64 (tcon_check lp64 the_map "charp_canary" the_string)
            "int_canary" a_long) s = run the_map s) /\
  (diags (tcon_check lp64 (tcon_check lp64 the_map "charp_canary" the_string)
            "int_canary" a_long) = [] <->
   diags (tcon_check lp64 the_map "charp_canary" the_string) = [] /\
   diags (tcon_check lp64 the_map "int_canary" a_long) = []).
Proof.
  apply (tcon_check_chain lp64 the_map "charp_canary" "int_canary" the_string
           a_long char_ptr (Tint IInt) char_ptr (Tint ILong)); reflexivity.
Defined.

Lemma tcon_check_arrow_witness :
  lty (arrow lp64 (tcon_check lp64 (the_list with_all) "canary" the_string)
         "raw")
  = lty (arrow lp64 (the_list with_all) "raw") /\
  (forall s,
     laddr (arrow lp64 (tcon_check lp64 (the_list with_all) "canary" the_string)
              "raw") s
     = laddr (arrow lp64 (the_list with_all) "raw") s).
Proof.
  apply (tcon_check_arrow lp64 (the_list with_all) "canary" the_string
           char_ptr "raw").
  reflexivity.
Defined.

Lemma tcon_cast_then_check_witness :
  (diags (tcon_check lp64 the_map "int_canary"
            (tcon_cast lp64 with_none the_map "int_canary" a_long)) = [] <->
   HAVE_TYPEOF with_none = true \/ is_pointer (Tint IInt) = true) /\
  (diags (tcon_check lp64 the_map "int_canary"
            (tcon_cast lp64 with_all the_map "int_canary" a_long)) = [] <->
   HAVE_TYPEOF with_all = true \/ is_pointer (Tint IInt) = true).
Proof.
  split.
  - apply (tcon_cast_then_check lp64 with_none the_map "int_canary" a_long
             (Tint IInt) (Tint ILong)); reflexivity.
  - apply (tcon_cast_then_check lp64 with_all the_map "int_canary" a_long
             (Tint IInt) (Tint ILong)); reflexivity.
Defined.

Lemma tcon_cast_pointer_canary_witness :
  (forall s, run (tcon_cast lp64 with_all (the_list with_all) "canary"
                    the_string) s
             = run (tcon_cast lp64 with_none (the_list with_all) "canary"
                      the_string) s) /\
  (forall s p s', run the_string s = Some (Vptr p, s') ->
     run (tcon_cast lp64 with_all (the_list with_all) "canary" the_string) s
     = Some (Vptr p, s')).
Proof.
  apply (tcon_cast_pointer_canary lp64 with_all with_none (the_list with_all)
           "canary" the_string char_ptr); reflexivity.
Defined.
